(** * cyber/logger/async_logger.h: the double-buffered asynchronous logger

    [AsyncLogger] wraps a synchronous glog [Logger].  Application threads
    append messages to the active [Buffer]; one writer thread swaps the two
    buffers and forwards the swapped-out one to the wrapped logger.

    The header gives the data ([Msg], [Buffer], the fields of
    [AsyncLogger]) and the three inline [Buffer] operations.  They are
    embedded here as they are written.  The member functions whose bodies
    live in the translation unit ([Start], [Stop], [Write], [Flush],
    [RunThread]) are modelled from the design document, each under a
    comment that says so.  [LogSize] only hands on what the wrapped
    logger reports and is not modelled. *)

From Stdlib Require Import ZArith List String Ascii Bool Lia.
Import ListNotations.
Local Open Scope Z_scope.

(** ** Machine integers *)

Definition INT_MAX : Z := 2147483647.
Definition INT_MIN : Z := -2147483648.

(** Conversion to [int] (32 bits, two's complement). *)
Definition to_int (z : Z) : Z := (z + 2 ^ 31) mod 2 ^ 32 - 2 ^ 31.

(** Conversion to [uint64_t]. *)
Definition to_uint64 (z : Z) : Z := z mod 2 ^ 64.

(** [sizeof(Msg)] is fixed by the target ABI, not by the header: it is a
    parameter of the development.  It is 48 on LP64 with libstdc++
    (8 bytes of [time_t], 32 of [std::string], 4 of [int32_t], 4 of
    padding). *)
Class ABI := { sizeof_Msg : positive }.

Definition lp64 : ABI := {| sizeof_Msg := 48 |}.

(** ** [struct Msg] *)

Record Msg := {
  ts : Z;              (* time_t *)
  message : string;    (* std::string, a byte sequence *)
  level : Z            (* int32_t *)
}.

(** ** [struct Buffer] *)

Record Buffer := {
  messages : list Msg;   (* std::vector<Msg> *)
  size : Z;              (* std::atomic<int>, an estimate of the size of [messages] *)
  flush : bool
}.

(** [Buffer() {}] with the default member initialisers. *)
Definition Buffer_new : Buffer :=
  {| messages := []; size := 0; flush := false |}.

Section BufferOps.
Context {abi : ABI}.

(** [inline void clear()] *)
Definition clear (b : Buffer) : Buffer :=
  {| messages := []; size := 0; flush := false |}.

(** The two [static_cast<int>] operands of [add], and their [int] sum.
    The sum of two [int]s that leaves the range is undefined in C++; it
    is taken to wrap, as the atomic [+=] does. *)
Definition add_delta (msg : Msg) : Z :=
  to_int (to_int (Z.pos sizeof_Msg)
          + to_int (Z.of_nat (String.length (message msg)))).

(** [inline void add(Msg&& msg, bool force_flush)].  The [+=] is the
    atomic one, which wraps. *)
Definition add (b : Buffer) (msg : Msg) (force_flush : bool) : Buffer :=
  {| messages := messages b ++ [msg];
     size := to_int (size b + add_delta msg);
     flush := flush b || force_flush |}.

(** [inline bool needs_flush_or_write() const] *)
Definition needs_flush_or_write (b : Buffer) : bool :=
  flush b || negb (match messages b with [] => true | _ :: _ => false end).

(** A run of [add] calls, oldest first. *)
Definition add_all (b : Buffer) (calls : list (Msg * bool)) : Buffer :=
  fold_left (fun acc c => add acc (fst c) (snd c)) calls b.

(** The estimate the design document describes for one record: the
    per-record overhead plus the length of the text, as numbers. *)
Definition record_cost (msg : Msg) : Z :=
  Z.pos sizeof_Msg + Z.of_nat (String.length (message msg)).

Definition total_cost (l : list Msg) : Z :=
  fold_right (fun m acc => record_cost m + acc) 0 l.

End BufferOps.

(** ** [class AsyncLogger] *)

(** [enum State { INITTED, RUNNING, STOPPED }] *)
Inductive State := INITTED | RUNNING | STOPPED.

Definition State_eqb (a b : State) : bool :=
  match a, b with
  | INITTED, INITTED | RUNNING, RUNNING | STOPPED, STOPPED => true
  | _, _ => false
  end.

(** The data members that the mutex protects, and the two counters.  The
    wrapped logger, the thread and the condition variables belong to the
    environment and appear in [World] below. *)
Record AsyncLogger := {
  max_buffer_bytes_ : Z;        (* int *)
  flush_count_ : Z;             (* uint64_t *)
  drop_count_ : Z;              (* uint64_t *)
  active_buf_ : Buffer;         (* std::unique_ptr<Buffer> *)
  flushing_buf_ : Buffer;       (* std::unique_ptr<Buffer> *)
  state_ : State
}.

Definition set_active (c : AsyncLogger) (b : Buffer) : AsyncLogger :=
  {| max_buffer_bytes_ := max_buffer_bytes_ c; flush_count_ := flush_count_ c;
     drop_count_ := drop_count_ c; active_buf_ := b;
     flushing_buf_ := flushing_buf_ c; state_ := state_ c |}.

Definition set_flushing (c : AsyncLogger) (b : Buffer) : AsyncLogger :=
  {| max_buffer_bytes_ := max_buffer_bytes_ c; flush_count_ := flush_count_ c;
     drop_count_ := drop_count_ c; active_buf_ := active_buf_ c;
     flushing_buf_ := b; state_ := state_ c |}.

Definition set_state (c : AsyncLogger) (s : State) : AsyncLogger :=
  {| max_buffer_bytes_ := max_buffer_bytes_ c; flush_count_ := flush_count_ c;
     drop_count_ := drop_count_ c; active_buf_ := active_buf_ c;
     flushing_buf_ := flushing_buf_ c; state_ := s |}.

Definition set_flush_count (c : AsyncLogger) (n : Z) : AsyncLogger :=
  {| max_buffer_bytes_ := max_buffer_bytes_ c; flush_count_ := n;
     drop_count_ := drop_count_ c; active_buf_ := active_buf_ c;
     flushing_buf_ := flushing_buf_ c; state_ := state_ c |}.

(** [active_buf_.swap(flushing_buf_)]: the two owners exchange their
    buffers, no record is copied. *)
Definition swap_bufs (c : AsyncLogger) : AsyncLogger :=
  {| max_buffer_bytes_ := max_buffer_bytes_ c; flush_count_ := flush_count_ c;
     drop_count_ := drop_count_ c; active_buf_ := flushing_buf_ c;
     flushing_buf_ := active_buf_ c; state_ := state_ c |}.

(** What a blocking member function does when it is called: it completes,
    it has to wait, or the call breaks the contract of the class. *)
Inductive Outcome (A : Type) :=
| Done (a : A)
| Blocked
| Violation.
Arguments Done {A} a.
Arguments Blocked {A}.
Arguments Violation {A}.

Definition completed {A : Type} (o : Outcome A) : option A :=
  match o with Done a => Some a | _ => None end.

Section Controller.
Context {abi : ABI}.

(** Modelled from the spec: the constructor, whose body is not in the
    header.  Two buffers are allocated, the state is the initial one of
    the header's member initialisers, and the budget is the argument. *)
Definition AsyncLogger_new (max_buffer_bytes : Z) : AsyncLogger :=
  {| max_buffer_bytes_ := max_buffer_bytes; flush_count_ := 0;
     drop_count_ := 0; active_buf_ := Buffer_new;
     flushing_buf_ := Buffer_new; state_ := INITTED |}.

(** Modelled from the spec: [Start], whose body is not in the header.
    INITTED becomes RUNNING; any other state is a contract violation. *)
Definition Start (c : AsyncLogger) : Outcome AsyncLogger :=
  match state_ c with
  | INITTED => Done (set_state c RUNNING)
  | _ => Violation
  end.

(** Modelled from the spec: the state change of [Stop], whose body is
    not in the header.  RUNNING becomes STOPPED. *)
Definition Stop (c : AsyncLogger) : Outcome AsyncLogger :=
  match state_ c with
  | RUNNING => Done (set_state c STOPPED)
  | _ => Violation
  end.

(** Modelled from the spec: the backpressure test of [Write] (section
    4.2): appending the record would push the estimated size of the
    active buffer, summed with that of the flushing buffer, past the
    configured maximum.  The header declares [BufferFull(const Buffer&)]
    for the test; its body is not in the header. *)
Definition over_budget (c : AsyncLogger) (msg : Msg) : bool :=
  max_buffer_bytes_ c
    <? size (active_buf_ c) + record_cost msg + size (flushing_buf_ c).

(** Modelled from the spec: [Write], whose body is not in the header.
    The record is built, and under the lock the caller waits while the
    record does not fit the budget; then the record is appended with
    [Buffer::add], which ORs [force_flush] into the buffer's flag.  The
    header declares the text as [message, message_len]; the level is an
    input as in section 4.2.  What a caller that is still blocked does
    when the logger is stopped is left out. *)
Definition Write (c : AsyncLogger) (force_flush : bool) (timestamp : Z)
    (text : string) (lvl : Z) : Outcome AsyncLogger :=
  let msg := {| ts := timestamp; message := text; level := lvl |} in
  match state_ c with
  | RUNNING =>
      if over_budget c msg then Blocked
      else Done (set_active c (add (active_buf_ c) msg force_flush))
  | _ => Violation
  end.

(** Modelled from the spec: the first half of [Flush] (section 4.3), up
    to the wait: the active buffer's flag is set and the writer woken. *)
Definition Flush_request (c : AsyncLogger) : Outcome AsyncLogger :=
  match state_ c with
  | RUNNING =>
      Done (set_active c {| messages := messages (active_buf_ c);
                            size := size (active_buf_ c);
                            flush := true |})
  | _ => Violation
  end.

(** Modelled from the spec: the condition the writer waits for in
    [RunThread] (section 4.5, step 1): the active buffer is non-empty or
    has a flush requested, which is [needs_flush_or_write], or a stop
    was signalled. *)
Definition writer_wake (c : AsyncLogger) : bool :=
  needs_flush_or_write (active_buf_ c) || State_eqb (state_ c) STOPPED.

End Controller.

(** ** The environment: wrapped logger, writer thread, callers *)

(** The calls the wrapped logger has received, oldest first. *)
Inductive SinkCall :=
| SinkWrite (force_flush : bool) (rec : Msg)
| SinkFlush.

(** The records the wrapped logger's write operation has received. *)
Fixpoint received (calls : list SinkCall) : list Msg :=
  match calls with
  | [] => []
  | SinkWrite _ m :: rest => m :: received rest
  | SinkFlush :: rest => received rest
  end.

(** Where the writer thread stands in [RunThread].  [final] marks the pass
    that was started with the stop signal seen. *)
Inductive WriterPc :=
| WNotStarted
| WWait                                (* waiting on wake_flusher_cv_ *)
| WForward (k : nat) (final : bool)    (* k records of the flushing buffer forwarded *)
| WClear (final : bool)                (* all forwarded, buffer not yet cleared *)
| WNotify (final : bool)               (* cleared, flush_complete_cv_ not yet signalled *)
| WExited.

(** A caller blocked in [Flush]: no drain cycle has started since its
    call, one has started, or one that started since has completed. *)
Inductive Phase := FWaiting | FCycle | FDone.

Record Ticket := {
  t_caller : nat;
  t_phase : Phase;
  t_snap : list Msg      (* history: the records appended before the call *)
}.

(** History of one completed append: the producer, and the number of swaps
    the writer had made when the record entered the active buffer, which
    numbers the buffer generation the record belongs to. *)
Record Appended := {
  a_gen : nat;
  a_pid : nat;
  a_msg : Msg
}.

(** The state of an execution.  The two history fields are only written:
    no step depends on them. *)
Record World := {
  ctl : AsyncLogger;
  writer : WriterPc;
  sink : list SinkCall;
  tickets : list Ticket;
  appended : list Appended;   (* history *)
  swaps : nat                 (* history *)
}.

Inductive Event :=
| EvStart
| EvStop
| EvWrite (pid : nat) (force_flush : bool) (timestamp : Z) (text : string) (lvl : Z)
| EvFlushCall (caller : nat)
| EvFlushReturn (caller : nat)
| EvWriter.

Definition find_ticket (c : nat) (l : list Ticket) : option Ticket :=
  find (fun t => Nat.eqb (t_caller t) c) l.

Definition drop_ticket (c : nat) (l : list Ticket) : list Ticket :=
  filter (fun t => negb (Nat.eqb (t_caller t) c)) l.

Definition advance (from to : Phase) (t : Ticket) : Ticket :=
  match t_phase t, from with
  | FWaiting, FWaiting | FCycle, FCycle | FDone, FDone =>
      {| t_caller := t_caller t; t_phase := to; t_snap := t_snap t |}
  | _, _ => t
  end.

Section Execution.
Context {abi : ABI}.

Definition boot (max_buffer_bytes : Z) : World :=
  {| ctl := AsyncLogger_new max_buffer_bytes; writer := WNotStarted;
     sink := []; tickets := []; appended := []; swaps := 0 |}.

Definition with_ctl (w : World) (c : AsyncLogger) : World :=
  {| ctl := c; writer := writer w; sink := sink w; tickets := tickets w;
     appended := appended w; swaps := swaps w |}.

(** Modelled from the spec: one step of [RunThread], whose body is not
    in the header (section 4.5).  Waiting, the writer needs its wake
    condition; it then swaps the buffers under the lock.  Without the
    lock it forwards the records of the flushing buffer in order, the
    last one with the buffer's flag, calls the wrapped logger's flush
    once if the flag is set, clears the buffer and counts the flush.
    With the lock again it signals the completion, and exits after the
    pass that saw the stop signal. *)
Definition writer_step (w : World) : option World :=
  let c := ctl w in
  let fb := flushing_buf_ c in
  match writer w with
  | WNotStarted | WExited => None
  | WWait =>
      if writer_wake c then
        Some {| ctl := swap_bufs c;
                writer := WForward 0 (State_eqb (state_ c) STOPPED);
                sink := sink w;
                tickets := map (advance FWaiting FCycle) (tickets w);
                appended := appended w;
                swaps := S (swaps w) |}
      else None
  | WForward k final =>
      match nth_error (messages fb) k with
      | Some m =>
          Some {| ctl := c; writer := WForward (S k) final;
                  sink := sink w
                          ++ [SinkWrite (flush fb
                                         && Nat.eqb (S k) (List.length (messages fb))) m];
                  tickets := tickets w; appended := appended w;
                  swaps := swaps w |}
      | None =>
          Some {| ctl := c; writer := WClear final;
                  sink := sink w ++ (if flush fb then [SinkFlush] else []);
                  tickets := tickets w; appended := appended w;
                  swaps := swaps w |}
      end
  | WClear final =>
      Some {| ctl := set_flush_count (set_flushing c (clear fb))
                       (to_uint64 (flush_count_ c + 1));
              writer := WNotify final; sink := sink w;
              tickets := tickets w; appended := appended w;
              swaps := swaps w |}
  | WNotify final =>
      Some {| ctl := c; writer := if final then WExited else WWait;
              sink := sink w;
              tickets := map (advance FCycle FDone) (tickets w);
              appended := appended w; swaps := swaps w |}
  end.

(** One event of an execution; [None] when the event cannot happen in
    this state (its thread is blocked, or the call breaks the
    contract).  What a thread does while it holds the mutex is one event:
    the test and the append of [Write], the request of [Flush], the swap
    and the signal of the writer.  What the writer does without the mutex
    is one event for each call of the wrapped logger and one for the
    clearing, so that the other threads interleave with them. *)
Definition exec (w : World) (e : Event) : option World :=
  match e with
  | EvStart =>
      match Start (ctl w) with
      | Done c =>
          Some {| ctl := c; writer := WWait; sink := sink w;
                  tickets := tickets w; appended := appended w;
                  swaps := swaps w |}
      | _ => None
      end
  | EvStop => option_map (with_ctl w) (completed (Stop (ctl w)))
  | EvWrite pid force_flush timestamp text lvl =>
      match Write (ctl w) force_flush timestamp text lvl with
      | Done c =>
          Some {| ctl := c; writer := writer w; sink := sink w;
                  tickets := tickets w;
                  appended := appended w
                              ++ [{| a_gen := swaps w; a_pid := pid;
                                     a_msg := {| ts := timestamp; message := text;
                                                 level := lvl |} |}];
                  swaps := swaps w |}
      | _ => None
      end
  | EvFlushCall caller =>
      match find_ticket caller (tickets w), Flush_request (ctl w) with
      | None, Done c =>
          Some {| ctl := c; writer := writer w; sink := sink w;
                  tickets := tickets w
                             ++ [{| t_caller := caller; t_phase := FWaiting;
                                    t_snap := map a_msg (appended w) |}];
                  appended := appended w; swaps := swaps w |}
      | _, _ => None
      end
  | EvFlushReturn caller =>
      match find_ticket caller (tickets w) with
      | Some t =>
          match t_phase t with
          | FDone =>
              Some {| ctl := ctl w; writer := writer w; sink := sink w;
                      tickets := drop_ticket caller (tickets w);
                      appended := appended w; swaps := swaps w |}
          | _ => None
          end
      | None => None
      end
  | EvWriter => writer_step w
  end.

Fixpoint run (w : World) (tr : list Event) : option World :=
  match tr with
  | [] => Some w
  | e :: rest =>
      match exec w e with
      | Some w' => run w' rest
      | None => None
      end
  end.

(** The [Write] calls of a trace that returned, oldest first, each with
    its producer. *)
Fixpoint trace_writes (tr : list Event) : list (nat * Msg) :=
  match tr with
  | [] => []
  | EvWrite pid _ timestamp text lvl :: rest =>
      (pid, {| ts := timestamp; message := text; level := lvl |})
      :: trace_writes rest
  | _ :: rest => trace_writes rest
  end.

(** The producer and the record of a history entry. *)
Definition who_what (a : Appended) : nat * Msg := (a_pid a, a_msg a).

(** The records one producer wrote, in the order of its calls. *)
Definition issued_by (p : nat) (ws : list (nat * Msg)) : list Msg :=
  map snd (filter (fun x => Nat.eqb (fst x) p) ws).

(** The records of the flushing buffer that are not yet forwarded. *)
Definition pending (w : World) : list Msg :=
  match writer w with
  | WForward k _ => skipn k (messages (flushing_buf_ (ctl w)))
  | _ => []
  end.

End Execution.

(** ** Concrete inputs used by the examples *)

(** A text of [n] bytes. *)
Fixpoint filler (n : nat) : string :=
  match n with
  | O => EmptyString
  | S n' => String "a"%char (filler n')
  end.

(** A record whose text fills the [int] range exactly on [lp64]:
    48 + 2147483599 = INT_MAX. *)
Definition huge_msg : Msg :=
  {| ts := 0; message := filler (Z.to_nat 2147483599); level := 0 |}.

Definition empty_msg : Msg := {| ts := 0; message := EmptyString; level := 0 |}.

(** ** Invariants of the executions *)

Section Invariants.
Context {abi : ABI}.

(** The estimate of a buffer is the cost of the records it holds. *)
Definition buffer_sound (b : Buffer) : Prop :=
  size b = total_cost (messages b).

(** Both estimates are exact and their sum is within the budget, which
    is an [int]. *)
Definition sizes_ok (w : World) : Prop :=
  buffer_sound (active_buf_ (ctl w))
  /\ buffer_sound (flushing_buf_ (ctl w))
  /\ size (active_buf_ (ctl w)) + size (flushing_buf_ (ctl w))
     <= max_buffer_bytes_ (ctl w)
  /\ max_buffer_bytes_ (ctl w) <= INT_MAX.

(** Outside a drain cycle the flushing buffer is a cleared one; inside,
    the writer's index is within it. *)
Definition shape_ok (w : World) : Prop :=
  match writer w with
  | WForward k _ => (k <= List.length (messages (flushing_buf_ (ctl w))))%nat
  | WClear _ => True
  | _ => flushing_buf_ (ctl w) = Buffer_new
  end.

(** Every record appended is, in append order, at the wrapped logger,
    waiting in the flushing buffer, or in the active buffer. *)
Definition history_ok (w : World) : Prop :=
  map a_msg (appended w)
  = received (sink w) ++ pending w ++ messages (active_buf_ (ctl w)).

(** What is known to hold the records appended before a [Flush] call,
    by the phase of the call. *)
Definition covering (w : World) (ph : Phase) : list Msg :=
  match ph with
  | FWaiting => map a_msg (appended w)
  | FCycle => received (sink w) ++ pending w
  | FDone => received (sink w)
  end.

Definition ticket_ok (w : World) (t : Ticket) : Prop :=
  exists rest, covering w (t_phase t) = t_snap t ++ rest.

(** Generation numbers never decrease along the append order and are
    bounded by the number of swaps made. *)
Definition gens_ok (w : World) : Prop :=
  Forall (fun a => (a_gen a <= swaps w)%nat) (appended w)
  /\ forall i j a b, (i <= j)%nat ->
       nth_error (appended w) i = Some a ->
       nth_error (appended w) j = Some b ->
       (a_gen a <= a_gen b)%nat.

(** The writer thread exists once started, and a pass is the final one
    only after the stop. *)
Definition lifecycle_ok (w : World) : Prop :=
  match state_ (ctl w), writer w with
  | INITTED, WNotStarted => True
  | RUNNING, (WWait | WForward _ false | WClear false | WNotify false) => True
  | STOPPED, WNotStarted => False
  | STOPPED, _ => True
  | _, _ => False
  end.

Record Inv (w : World) : Prop := {
  inv_shape : shape_ok w;
  inv_history : history_ok w;
  inv_tickets : Forall (ticket_ok w) (tickets w);
  inv_gens : gens_ok w;
  inv_lifecycle : lifecycle_ok w;
  inv_no_drop : drop_count_ (ctl w) = 0
}.

(** The records [snap] appended before a call of [Flush] by [c] are at
    the wrapped logger, or [c] is still waiting with a snapshot that
    holds them. *)
Definition flush_pending (c : nat) (snap : list Msg) (w : World) : Prop :=
  (exists more, received (sink w) = snap ++ more)
  \/ (exists t rest, find_ticket c (tickets w) = Some t
                     /\ t_snap t = snap ++ rest).

End Invariants.

(** ** Sample executions on [lp64] *)

(** A text of 50 bytes: a record of 98 bytes on [lp64]. *)
Definition text50 : string := filler 50.

Definition write50 (pid : nat) : Event := EvWrite pid false 0 text50 0.

Definition unwrap (o : option World) : World :=
  match o with Some w => w | None => boot 0 end.

(** Two producers write one record each. *)
Definition tr_two : list Event :=
  [EvStart; EvWrite 0 false 1 "alpha" 0; EvWrite 1 true 2 "beta" 2].

Definition w_two : World :=
  Eval vm_compute in unwrap (@run lp64 (boot 1024) tr_two).

(** The writer then runs one whole pass: the swap, two records, the end
    of the buffer, the clearing, the signal. *)
Definition tr_pass : list Event := repeat EvWriter 6.

Definition w_flushed : World :=
  Eval vm_compute in
    unwrap (@run lp64 w_two (EvFlushCall 7 :: tr_pass ++ [EvFlushReturn 7])).

(** The writer forwards the first record only, and both producers write
    again. *)
Definition tr_mixed : list Event :=
  tr_two ++ [EvWriter; EvWriter; EvWrite 1 false 3 "gamma" 0;
             EvWrite 0 false 4 "delta" 0].

Definition w_mixed : World :=
  Eval vm_compute in unwrap (@run lp64 (boot 1024) tr_mixed).

(** Ten records of 98 bytes fill a budget of 1024 bytes. *)
Definition tr_full : list Event := EvStart :: repeat (write50 0) 10.

Definition w_full : World :=
  Eval vm_compute in unwrap (@run lp64 (boot 1024) tr_full).

(** ** Measures of a buffer's contents *)

(** The bytes of text a list of records holds. *)
Definition text_bytes (l : list Msg) : Z :=
  fold_right (fun m acc => Z.of_nat (String.length (message m)) + acc) 0 l.

(** [messages.empty()] *)
Definition is_empty {A : Type} (l : list A) : bool :=
  match l with [] => true | _ :: _ => false end.

(** * Properties of [Buffer] *)

Lemma to_int_id (z : Z) : INT_MIN <= z <= INT_MAX -> to_int z = z.
Proof.
  unfold to_int, INT_MIN, INT_MAX. intros H.
  rewrite Z.mod_small; lia.
Qed.

Lemma length_filler (n : nat) : String.length (filler n) = n.
Proof. induction n as [|n IH]; simpl; [reflexivity | now rewrite IH]. Qed.

Section BufferFacts.
Context {abi : ABI}.

Lemma record_cost_pos (m : Msg) : 0 < record_cost m.
Proof. unfold record_cost. lia. Qed.

Lemma total_cost_nonneg (l : list Msg) : 0 <= total_cost l.
Proof.
  induction l as [|m l IH]; simpl; [lia|].
  pose proof (record_cost_pos m). lia.
Qed.

Lemma total_cost_app (l1 l2 : list Msg) :
  total_cost (l1 ++ l2) = total_cost l1 + total_cost l2.
Proof. induction l1 as [|m l1 IH]; simpl; lia. Qed.

(** Within the [int] range the casts and the sum of [add] lose nothing. *)
Lemma add_delta_exact (m : Msg) :
  record_cost m <= INT_MAX -> add_delta m = record_cost m.
Proof.
  unfold add_delta, record_cost, INT_MAX. intros H.
  assert (Hn : 0 <= Z.of_nat (String.length (message m))) by lia.
  rewrite (to_int_id (Z.pos sizeof_Msg)) by (unfold INT_MIN, INT_MAX; lia).
  rewrite (to_int_id (Z.of_nat _)) by (unfold INT_MIN, INT_MAX; lia).
  apply to_int_id. unfold INT_MIN, INT_MAX. lia.
Qed.

Lemma add_size_exact (b : Buffer) (m : Msg) (ff : bool) :
  0 <= size b -> size b + record_cost m <= INT_MAX ->
  size (add b m ff) = size b + record_cost m.
Proof.
  intros H0 H1. pose proof (record_cost_pos m) as Hp.
  unfold add. cbn [size].
  rewrite add_delta_exact by lia.
  apply to_int_id. unfold INT_MIN, INT_MAX in *. lia.
Qed.

Lemma add_all_messages (calls : list (Msg * bool)) (b : Buffer) :
  messages (add_all b calls) = messages b ++ map fst calls.
Proof.
  revert b. induction calls as [|[m ff] calls IH]; intros b; simpl.
  - now rewrite app_nil_r.
  - rewrite IH. cbn [add messages]. now rewrite <- app_assoc.
Qed.

Lemma add_all_size_exact (calls : list (Msg * bool)) (b : Buffer) :
  0 <= size b ->
  size b + total_cost (map fst calls) <= INT_MAX ->
  size (add_all b calls) = size b + total_cost (map fst calls).
Proof.
  revert b. induction calls as [|[m ff] calls IH]; intros b H0 H1; simpl in *.
  - lia.
  - pose proof (record_cost_pos m) as Hp.
    pose proof (total_cost_nonneg (map fst calls)) as Ht.
    assert (Hs : size (add b m ff) = size b + record_cost m)
      by (apply add_size_exact; lia).
    rewrite IH; lia.
Qed.

Lemma add_all_flush (calls : list (Msg * bool)) (b : Buffer) :
  flush (add_all b calls) = flush b || existsb snd calls.
Proof.
  revert b. induction calls as [|[m ff] calls IH]; intros b; simpl.
  - now rewrite orb_false_r.
  - rewrite IH. cbn [add flush]. now rewrite orb_assoc.
Qed.

(** Two appends on [lp64] after which the estimate has wrapped. *)
Lemma add_wraps_at_int_max (b : Buffer) (big small : Msg) (f1 f2 : bool) :
  Z.of_nat (String.length (message big)) = 2147483599 ->
  Z.of_nat (String.length (message small)) = 0 ->
  size (@add lp64 (clear b) big f1) = 2147483647
  /\ size (@add lp64 (@add lp64 (clear b) big f1) small f2) = -2147483601.
Proof.
  intros Hb Hs. unfold add, add_delta. cbn [size clear sizeof_Msg lp64].
  rewrite Hb, Hs. split; reflexivity.
Qed.

End BufferFacts.

(** C5.  Immediately after [clear()] the size estimate of a buffer is 0,
    its sequence of records is empty and its flush flag is false. *)
Theorem clear_resets_buffer (b : Buffer) :
  size (clear b) = 0 /\ messages (clear b) = [] /\ flush (clear b) = false.
Proof. unfold clear. cbn. repeat split. Qed.

(** C6, as amended.  While the sum of (per-record overhead + text length)
    over the records appended since the last [clear] stays within the
    [int] range, the buffer holds those records and its size estimate
    equals that sum, and one more [add] that still fits raises it by
    exactly the overhead plus the length of the text, so that it does not
    decrease. *)
Theorem add_size_is_total_cost {abi : ABI} (b : Buffer)
    (calls : list (Msg * bool)) (m : Msg) (ff : bool) :
  total_cost (map fst calls) + record_cost m <= INT_MAX ->
  let b' := add_all (clear b) calls in
  messages b' = map fst calls
  /\ size b' = total_cost (messages b')
  /\ size (add b' m ff) = size b' + record_cost m
  /\ size b' <= size (add b' m ff).
Proof.
  intros H b'. pose proof (record_cost_pos m) as Hp.
  pose proof (total_cost_nonneg (map fst calls)) as Ht.
  assert (Hm : messages b' = map fst calls)
    by (unfold b'; now rewrite add_all_messages).
  assert (Hb : size b' = total_cost (map fst calls)).
  { unfold b'. rewrite add_all_size_exact; cbn [clear size]; lia. }
  assert (Ha : size (add b' m ff) = size b' + record_cost m)
    by (apply add_size_exact; lia).
  rewrite Hm. repeat split; lia.
Qed.

Lemma add_size_is_total_cost_witness :
  @total_cost lp64 (map fst [(empty_msg, false)]) + @record_cost lp64 empty_msg
    <= INT_MAX
  /\ size (@add_all lp64 (clear Buffer_new) [(empty_msg, false)]) = 48
  /\ size (@add lp64 (@add_all lp64 (clear Buffer_new) [(empty_msg, false)])
             empty_msg true) = 96.
Proof.
  assert (H : @total_cost lp64 (map fst [(empty_msg, false)])
              + @record_cost lp64 empty_msg <= INT_MAX)
    by (vm_compute; discriminate).
  split; [exact H|].
  pose proof (@add_size_is_total_cost lp64 Buffer_new [(empty_msg, false)]
                empty_msg true H) as (_ & H1 & H2 & _).
  split; [exact H1 | rewrite H2, H1; reflexivity].
Defined.

(** C6 as stated fails: on [lp64], after a record that brings the estimate
    to INT_MAX, one more [add] does not raise the estimate by the
    overhead plus the length; the estimate wraps and decreases. *)
Lemma add_size_wraps :
  let b1 := @add lp64 (clear Buffer_new) huge_msg false in
  let b2 := @add lp64 b1 empty_msg false in
  size b1 = INT_MAX
  /\ size b2 <> size b1 + @record_cost lp64 empty_msg
  /\ size b2 < size b1.
Proof.
  intros b1 b2.
  assert (Hbig : Z.of_nat (String.length (message huge_msg)) = 2147483599).
  { unfold huge_msg, message. cbv beta iota.
    rewrite length_filler. apply Z2Nat.id. discriminate. }
  assert (Hsmall : Z.of_nat (String.length (message empty_msg)) = 0)
    by reflexivity.
  destruct (add_wraps_at_int_max Buffer_new huge_msg empty_msg false false
              Hbig Hsmall) as [H1 H2].
  fold b1 in H1, H2. fold b2 in H2.
  rewrite H1, H2. unfold INT_MAX, record_cost.
  rewrite Hsmall. cbn [sizeof_Msg lp64].
  split; [reflexivity|]. split; lia.
Qed.

(** C7.  Every [add] ORs [force_flush] into the flag, so after a run of
    [add] calls the flag is the flag before OR the [force_flush] of every
    call (once set it stays set), and since the last [clear] it is the OR
    of the [force_flush] arguments. *)
Theorem flush_flag_is_or_of_force_flush {abi : ABI} (b : Buffer)
    (calls : list (Msg * bool)) (m : Msg) (ff : bool) :
  flush (add b m ff) = flush b || ff
  /\ flush (add_all b calls) = flush b || existsb snd calls
  /\ flush (add_all (clear b) calls) = existsb snd calls.
Proof.
  split; [reflexivity|]. split; [apply add_all_flush|].
  now rewrite add_all_flush.
Qed.

(** C8.  The writer's wake condition holds exactly when the active buffer
    is non-empty, a flush is requested on it, or a stop was signalled;
    and [needs_flush_or_write()] is true exactly when the flag is set or
    the list of messages is non-empty. *)
Theorem writer_wake_condition {abi : ABI} (c : AsyncLogger) (b : Buffer) :
  (writer_wake c = true <->
     messages (active_buf_ c) <> [] \/ flush (active_buf_ c) = true
     \/ state_ c = STOPPED)
  /\ (needs_flush_or_write b = true <-> flush b = true \/ messages b <> []).
Proof.
  assert (Hb : forall b0 : Buffer,
             needs_flush_or_write b0 = true <->
             flush b0 = true \/ messages b0 <> []).
  { intros b0. unfold needs_flush_or_write.
    destruct (flush b0), (messages b0); cbn; split; intros H; auto;
      try discriminate.
    - destruct H as [H|H]; [discriminate | now elim H].
    - right. discriminate. }
  split; [|apply Hb].
  unfold writer_wake. rewrite orb_true_iff, Hb. split.
  - intros [[H|H]|H]; auto.
    right. right. destruct (state_ c); try discriminate; reflexivity.
  - intros [H|[H|H]]; auto. right. now rewrite H.
Qed.

(** C9.  After any [add(msg, force_flush)], whatever [force_flush] is,
    [needs_flush_or_write()] returns true. *)
Theorem add_establishes_wake {abi : ABI} (b : Buffer) (m : Msg) (ff : bool) :
  needs_flush_or_write (add b m ff) = true.
Proof.
  unfold needs_flush_or_write, add. cbn [messages flush].
  destruct (messages b); cbn; apply orb_true_r.
Qed.

(** * Properties of the executions *)

Lemma received_app (l1 l2 : list SinkCall) :
  received (l1 ++ l2) = received l1 ++ received l2.
Proof.
  induction l1 as [|[f m|] l1 IH]; simpl; [reflexivity | now rewrite IH | exact IH].
Qed.

Lemma skipn_nth_error_some {A : Type} (l : list A) (k : nat) (x : A) :
  nth_error l k = Some x -> skipn k l = x :: skipn (S k) l.
Proof.
  revert k. induction l as [|y l IH]; intros [|k] H; simpl in *;
    try discriminate.
  - now inversion H.
  - now apply IH.
Qed.

Lemma skipn_nth_error_none {A : Type} (l : list A) (k : nat) :
  nth_error l k = None -> skipn k l = [].
Proof.
  intros H. apply skipn_all2. now apply nth_error_None.
Qed.

Lemma find_ticket_app (c : nat) (l1 l2 : list Ticket) (t : Ticket) :
  find_ticket c l1 = Some t -> find_ticket c (l1 ++ l2) = Some t.
Proof.
  unfold find_ticket. induction l1 as [|x l1 IH]; simpl; [discriminate|].
  destruct (Nat.eqb (t_caller x) c); auto.
Qed.

Lemma find_ticket_advance (c : nat) (p q : Phase) (l : list Ticket) :
  find_ticket c (map (advance p q) l)
  = option_map (advance p q) (find_ticket c l).
Proof.
  unfold find_ticket. induction l as [|x l IH]; simpl; [reflexivity|].
  assert (Hc : t_caller (advance p q x) = t_caller x)
    by (unfold advance; destruct (t_phase x), p; reflexivity).
  rewrite Hc. destruct (Nat.eqb (t_caller x) c); auto.
Qed.

Lemma find_ticket_drop_other (c c' : nat) (l : list Ticket) :
  c <> c' -> find_ticket c (drop_ticket c' l) = find_ticket c l.
Proof.
  intros Hne. unfold find_ticket, drop_ticket.
  induction l as [|x l IH]; simpl; [reflexivity|].
  destruct (Nat.eqb (t_caller x) c') eqn:E'; simpl.
  - apply Nat.eqb_eq in E'.
    destruct (Nat.eqb (t_caller x) c) eqn:E; [|exact IH].
    apply Nat.eqb_eq in E. congruence.
  - destruct (Nat.eqb (t_caller x) c); auto.
Qed.

Lemma find_ticket_In (c : nat) (l : list Ticket) (t : Ticket) :
  find_ticket c l = Some t -> In t l /\ t_caller t = c.
Proof.
  unfold find_ticket. intros H. apply find_some in H.
  destruct H as [H1 H2]. split; [exact H1 | now apply Nat.eqb_eq].
Qed.

Lemma advance_snap (p q : Phase) (t : Ticket) :
  t_snap (advance p q t) = t_snap t.
Proof. unfold advance. destruct (t_phase t), p; reflexivity. Qed.

Section ExecutionFacts.
Context {abi : ABI}.

Lemma run_app (tr1 tr2 : list Event) (w : World) :
  run w (tr1 ++ tr2)
  = match run w tr1 with Some w' => run w' tr2 | None => None end.
Proof.
  revert w. induction tr1 as [|e tr1 IH]; intros w; simpl; [reflexivity|].
  destruct (exec w e); [apply IH | reflexivity].
Qed.

Lemma run_snoc (tr : list Event) (e : Event) (w w' : World) :
  run w (tr ++ [e]) = Some w' ->
  exists w1, run w tr = Some w1 /\ exec w1 e = Some w'.
Proof.
  rewrite run_app. destruct (run w tr) as [w1|]; [|discriminate].
  simpl. destruct (exec w1 e) as [w2|] eqn:E; [|discriminate].
  intros H. inversion H; subst. eauto.
Qed.

Lemma trace_writes_app (tr1 tr2 : list Event) :
  trace_writes (tr1 ++ tr2) = trace_writes tr1 ++ trace_writes tr2.
Proof.
  induction tr1 as [|e tr1 IH]; simpl; [reflexivity|].
  destruct e; simpl; now rewrite ?IH.
Qed.

End ExecutionFacts.

(** Case analysis of [exec w e = Some w']: one goal for each way the
    event can happen, with [w'] replaced by the state it builds. *)
Ltac exec_cases H :=
  match type of H with
  | exec ?w ?e = Some ?w' =>
      destruct e;
      unfold exec, writer_step, Start, Stop, Write, Flush_request,
        completed, option_map in H;
      repeat match goal with
             | E : context [match ?x with _ => _ end] |- _ =>
                 destruct x eqn:?; try discriminate
             end;
      repeat match goal with
             | E : Done _ = Done _ |- _ => inversion E; subst; clear E
             | E : Some _ = Some _ |- _ => inversion E; subst; clear E
             end
  end.

(** Projections of the states the events build. *)
Ltac simp_world :=
  cbn [ctl writer sink tickets appended swaps with_ctl
       max_buffer_bytes_ flush_count_ drop_count_ active_buf_ flushing_buf_
       state_ set_active set_flushing set_state set_flush_count swap_bufs
       messages size flush clear Buffer_new] in *.

Section Preservation.
Context {abi : ABI}.

Lemma sizes_ok_exec (w w' : World) (e : Event) :
  sizes_ok w -> exec w e = Some w' -> sizes_ok w'.
Proof.
  unfold sizes_ok, buffer_sound.
  intros (Ha & Hf & Hsum & Hmax) H.
  pose proof (total_cost_nonneg (messages (active_buf_ (ctl w)))) as Pa.
  pose proof (total_cost_nonneg (messages (flushing_buf_ (ctl w)))) as Pf.
  exec_cases H; simp_world; auto; try (repeat split; (assumption || lia)).
  - (* Write *)
    unfold over_budget in *.
    match goal with
    | E : (_ <? _) = false |- _ => apply Z.ltb_ge in E; rename E into Hfit
    end.
    set (m := {| ts := timestamp; message := text; level := lvl |}) in *.
    assert (Hs : size (add (active_buf_ (ctl w)) m force_flush)
                 = size (active_buf_ (ctl w)) + record_cost m)
      by (apply add_size_exact; lia).
    rewrite Hs. cbn [add messages]. rewrite total_cost_app. simpl total_cost.
    repeat split; try lia.
Qed.

Lemma shape_ok_exec (w w' : World) (e : Event) :
  lifecycle_ok w -> shape_ok w -> exec w e = Some w' -> shape_ok w'.
Proof.
  unfold shape_ok, lifecycle_ok. intros Hl Hs H.
  exec_cases H; simp_world;
    repeat match goal with
           | E : writer _ = _ |- _ => rewrite E in *
           | E : state_ _ = _ |- _ => rewrite E in *
           end; simp_world; auto; try contradiction.
  all: try lia.
  all: match goal with
    | E : nth_error ?l ?k = Some _ |- _ =>
        assert (Hlt : (k < List.length l)%nat)
          by (apply nth_error_Some; rewrite E; discriminate)
    end; lia.
Qed.

Lemma lifecycle_ok_exec (w w' : World) (e : Event) :
  lifecycle_ok w -> exec w e = Some w' -> lifecycle_ok w'.
Proof.
  unfold lifecycle_ok. intros Hs H.
  exec_cases H; simp_world;
    repeat match goal with
           | E : writer _ = _ |- _ => rewrite E in *
           | E : state_ _ = _ |- _ => rewrite E in *
           end; simp_world; auto.
  all: try (destruct (writer w); auto; fail).
  all: try (destruct (state_ (ctl w)); simpl; auto;
            repeat match goal with b : bool |- _ => destruct b end; auto; fail).
Qed.

Lemma no_drop_exec (w w' : World) (e : Event) :
  drop_count_ (ctl w) = 0 -> exec w e = Some w' -> drop_count_ (ctl w') = 0.
Proof.
  intros Hs H. exec_cases H; simp_world; auto.
Qed.

Lemma history_ok_exec (w w' : World) (e : Event) :
  lifecycle_ok w -> shape_ok w -> history_ok w ->
  exec w e = Some w' -> history_ok w'.
Proof.
  unfold lifecycle_ok, shape_ok, history_ok, pending. intros Hl Hs Hh H.
  exec_cases H; simp_world;
    repeat match goal with
           | E : writer _ = _ |- _ => rewrite E in *
           | E : state_ _ = _ |- _ => rewrite E in *
           end; simp_world; auto; try contradiction.
  all: rewrite ?map_app, ?received_app; cbn [add messages map a_msg received].
  all: try (rewrite Hh, <- ?app_assoc; reflexivity).
  all: try (rewrite Hs in *; cbn [messages skipn] in *;
            rewrite Hh, ?app_nil_r; reflexivity).
  all: try match goal with
       | E : nth_error _ _ = Some _ |- _ =>
           rewrite Hh, (skipn_nth_error_some _ _ _ E), <- !app_assoc;
           reflexivity
       | E : nth_error _ _ = None |- _ =>
           rewrite (skipn_nth_error_none _ _ E) in Hh;
           rewrite Hh, ?app_nil_r; reflexivity
       end.
Qed.

(** What covers a [Flush] call's records only grows, by a suffix. *)
Lemma covering_grows (w w' : World) (e : Event) (ph : Phase) :
  lifecycle_ok w -> shape_ok w ->
  exec w e = Some w' ->
  exists ext, covering w' ph = covering w ph ++ ext.
Proof.
  unfold lifecycle_ok, shape_ok, covering, pending. intros Hl Hs H.
  exec_cases H; simp_world;
    repeat match goal with
           | E : writer _ = _ |- _ => rewrite E in *
           | E : state_ _ = _ |- _ => rewrite E in *
           end; simp_world; try contradiction.
  all: rewrite ?map_app, ?received_app; cbn [map a_msg received].
  all: try (exists []; rewrite ?app_nil_r; reflexivity).
  all: destruct ph.
  all: try (exists []; rewrite ?app_nil_r; reflexivity).
  all: try (eexists; reflexivity).
  all: try (eexists; rewrite <- ?app_assoc; reflexivity).
  all: try match goal with
       | E : nth_error _ _ = Some _ |- _ =>
           rewrite (skipn_nth_error_some _ _ _ E), <- ?app_assoc;
           cbn [app]; try (exists []; rewrite ?app_nil_r; reflexivity)
       | E : nth_error _ _ = None |- _ =>
           rewrite (skipn_nth_error_none _ _ E), ?app_nil_r;
           try (exists []; rewrite ?app_nil_r; reflexivity)
       end.
Qed.

Lemma ticket_ok_grows (w w' : World) (e : Event) (t : Ticket) :
  lifecycle_ok w -> shape_ok w ->
  exec w e = Some w' -> ticket_ok w t -> ticket_ok w' t.
Proof.
  intros Hl Hs H [rest Hr].
  destruct (covering_grows w w' e (t_phase t) Hl Hs H) as [ext He].
  exists (rest ++ ext). now rewrite He, Hr, app_assoc.
Qed.

Lemma ticket_ok_advance (w w' : World) (p q : Phase) (t : Ticket) :
  covering w' q = covering w p ->
  ticket_ok w t -> ticket_ok w' t -> ticket_ok w' (advance p q t).
Proof.
  intros Hc [rest Hr] Hg. unfold advance.
  destruct (t_phase t) eqn:Ep, p; try exact Hg;
    exists rest; cbn [t_phase t_snap]; now rewrite Hc.
Qed.

Lemma tickets_ok_exec (w w' : World) (e : Event) :
  lifecycle_ok w -> shape_ok w -> history_ok w ->
  Forall (ticket_ok w) (tickets w) ->
  exec w e = Some w' -> Forall (ticket_ok w') (tickets w').
Proof.
  intros Hl Hs Hh Ht H.
  assert (Hg : Forall (ticket_ok w') (tickets w)).
  { eapply Forall_impl; [|exact Ht].
    intros t. now apply (ticket_ok_grows w w' e). }
  exec_cases H; simp_world; try exact Hg.
  (* the completion signal, on the final pass or not *)
  all: try (apply Forall_map; rewrite Forall_forall in *; intros t Hin;
    apply (ticket_ok_advance w); auto;
    unfold covering, pending; simp_world;
    match goal with E : writer _ = _ |- _ => rewrite E end;
    now rewrite app_nil_r).
  - (* a new Flush call *)
    apply Forall_app. split; [exact Hg|].
    constructor; [|constructor].
    exists []. cbn. now rewrite app_nil_r.
  - (* a Flush call returns *)
    unfold drop_ticket. apply Forall_forall. intros t' Hin.
    apply filter_In in Hin. destruct Hin as [Hin _].
    revert t' Hin. now apply Forall_forall.
  - (* the swap *)
    apply Forall_map. rewrite Forall_forall in *. intros t Hin.
    apply (ticket_ok_advance w); auto.
    unfold covering, history_ok in *. rewrite Hh.
    unfold pending. simp_world.
    match goal with E : writer _ = _ |- _ => rewrite E end.
    reflexivity.
Qed.

Lemma gens_ok_snoc (l : list Appended) (x : Appended) (n : nat) :
  Forall (fun a => (a_gen a <= n)%nat) l ->
  (forall i j a b, (i <= j)%nat ->
     nth_error l i = Some a -> nth_error l j = Some b ->
     (a_gen a <= a_gen b)%nat) ->
  a_gen x = n ->
  forall i j a b, (i <= j)%nat ->
    nth_error (l ++ [x]) i = Some a -> nth_error (l ++ [x]) j = Some b ->
    (a_gen a <= a_gen b)%nat.
Proof.
  intros Hb Hm Hx i j a b Hij Hi Hj.
  assert (Hle : forall k c, nth_error (l ++ [x]) k = Some c ->
                            (a_gen c <= n)%nat).
  { intros k c Hk. apply nth_error_In in Hk. apply in_app_or in Hk.
    destruct Hk as [Hk|[Hk|[]]].
    - rewrite Forall_forall in Hb. now apply Hb.
    - subst c. lia. }
  destruct (Nat.lt_ge_cases j (List.length l)) as [Hlt|Hge].
  - rewrite nth_error_app1 in Hi, Hj by lia. eauto.
  - rewrite (nth_error_app2 l [x]) in Hj by lia.
    destruct (j - List.length l)%nat as [|d] eqn:Ed; simpl in Hj.
    + inversion Hj; subst b. rewrite Hx. eauto.
    + destruct d; discriminate.
Qed.

Lemma gens_ok_exec (w w' : World) (e : Event) :
  gens_ok w -> exec w e = Some w' -> gens_ok w'.
Proof.
  intros [Hb Hm] H.
  assert (Hb' : Forall (fun a => (a_gen a <= S (swaps w))%nat) (appended w)).
  { eapply Forall_impl; [|exact Hb]. cbv beta. intros; lia. }
  unfold gens_ok.
  exec_cases H; simp_world; try (split; assumption).
  split.
  - apply Forall_app. split; [exact Hb|]. constructor; [cbn; lia|constructor].
  - now apply (gens_ok_snoc _ _ (swaps w)).
Qed.

Lemma sizes_ok_boot (max_buffer_bytes : Z) :
  0 <= max_buffer_bytes <= INT_MAX -> sizes_ok (boot max_buffer_bytes).
Proof. intros H. unfold sizes_ok, buffer_sound. cbn. lia. Qed.

Lemma sizes_ok_run (tr : list Event) (w w' : World) :
  sizes_ok w -> run w tr = Some w' -> sizes_ok w'.
Proof.
  revert w. induction tr as [|e tr IH]; intros w Hw H; simpl in H.
  - now inversion H; subst.
  - destruct (exec w e) as [w1|] eqn:E; [|discriminate].
    apply (IH w1); [now apply (sizes_ok_exec w w1 e) | exact H].
Qed.

Lemma Inv_boot (max_buffer_bytes : Z) : Inv (boot max_buffer_bytes).
Proof.
  constructor.
  - reflexivity.
  - reflexivity.
  - constructor.
  - split; [constructor|]. intros [|i] j a b _ Hi; discriminate Hi.
  - exact I.
  - reflexivity.
Qed.

Lemma Inv_exec (w w' : World) (e : Event) :
  Inv w -> exec w e = Some w' -> Inv w'.
Proof.
  intros [H2 H3 H4 H5 H6 H7] H. constructor.
  - now apply (shape_ok_exec w w' e).
  - now apply (history_ok_exec w w' e).
  - now apply (tickets_ok_exec w w' e).
  - now apply (gens_ok_exec w w' e).
  - now apply (lifecycle_ok_exec w w' e).
  - now apply (no_drop_exec w w' e).
Qed.

Lemma Inv_run (tr : list Event) (w w' : World) :
  Inv w -> run w tr = Some w' -> Inv w'.
Proof.
  revert w. induction tr as [|e tr IH]; intros w Hw H; simpl in H.
  - now inversion H; subst.
  - destruct (exec w e) as [w1|] eqn:E; [|discriminate].
    apply (IH w1); [now apply (Inv_exec w w1 e) | exact H].
Qed.

Lemma appended_exec (w w' : World) (e : Event) :
  exec w e = Some w' ->
  map who_what (appended w') = map who_what (appended w) ++ trace_writes [e].
Proof.
  intros H.
  exec_cases H; simp_world; cbn [trace_writes]; rewrite ?app_nil_r;
    try reflexivity.
  now rewrite map_app.
Qed.

Lemma appended_run (tr : list Event) (w w' : World) :
  run w tr = Some w' ->
  map who_what (appended w') = map who_what (appended w) ++ trace_writes tr.
Proof.
  revert w. induction tr as [|e tr IH]; intros w H; simpl in H.
  - inversion H; subst. cbn. now rewrite app_nil_r.
  - destruct (exec w e) as [w1|] eqn:E; [|discriminate].
    rewrite (IH w1 H), (appended_exec w w1 e E).
    rewrite <- app_assoc. f_equal.
    change (e :: tr) with ([e] ++ tr). now rewrite trace_writes_app.
Qed.

Lemma appended_boot (max_buffer_bytes : Z) (tr : list Event) (w : World) :
  run (boot max_buffer_bytes) tr = Some w ->
  map who_what (appended w) = trace_writes tr
  /\ map a_msg (appended w) = map snd (trace_writes tr).
Proof.
  intros H. apply appended_run in H. cbn in H.
  split; [exact H|]. rewrite <- H, map_map. reflexivity.
Qed.

Lemma max_buffer_bytes_exec (w w' : World) (e : Event) :
  exec w e = Some w' -> max_buffer_bytes_ (ctl w') = max_buffer_bytes_ (ctl w).
Proof. intros H. exec_cases H; simp_world; reflexivity. Qed.

Lemma max_buffer_bytes_run (tr : list Event) (w w' : World) :
  run w tr = Some w' -> max_buffer_bytes_ (ctl w') = max_buffer_bytes_ (ctl w).
Proof.
  revert w. induction tr as [|e tr IH]; intros w H; simpl in H.
  - now inversion H; subst.
  - destruct (exec w e) as [w1|] eqn:E; [|discriminate].
    rewrite (IH w1 H). now apply (max_buffer_bytes_exec w w1 e).
Qed.

Lemma issued_by_firstn (p n : nat) (l : list (nat * Msg)) :
  exists later, issued_by p l = issued_by p (firstn n l) ++ later.
Proof.
  exists (issued_by p (skipn n l)). unfold issued_by.
  rewrite <- map_app, <- filter_app. now rewrite firstn_skipn.
Qed.

Lemma find_ticket_app_none (c : nat) (l : list Ticket) (t : Ticket) :
  find_ticket c l = None -> t_caller t = c ->
  find_ticket c (l ++ [t]) = Some t.
Proof.
  unfold find_ticket. intros Hn Hc.
  induction l as [|x l IH]; simpl in *.
  - now rewrite Hc, Nat.eqb_refl.
  - destruct (Nat.eqb (t_caller x) c); [discriminate | auto].
Qed.

Lemma flush_pending_exec (c : nat) (snap : list Msg) (w w' : World) (e : Event) :
  Inv w -> flush_pending c snap w -> exec w e = Some w' ->
  flush_pending c snap w'.
Proof.
  intros HI [[more Hm]|(t & rest & Hf & Hs)] H.
  - left.
    destruct (covering_grows w w' e FDone (inv_lifecycle w HI)
                (inv_shape w HI) H) as [ext He].
    cbn [covering] in He. exists (more ++ ext).
    now rewrite He, Hm, app_assoc.
  - pose proof (inv_tickets w HI) as Ht. rewrite Forall_forall in Ht.
    exec_cases H; simp_world;
      try (right; exists t, rest; split; [assumption|assumption]).
    + (* another Flush call *)
      right. exists t, rest. split; [|exact Hs].
      cbn [tickets]. now apply find_ticket_app.
    + (* a Flush call returns *)
      destruct (Nat.eq_dec c caller) as [->|Hne].
      * left.
        match goal with
        | E : find_ticket caller _ = Some ?t0 |- _ =>
            rewrite E in Hf; inversion Hf; subst t0;
            apply find_ticket_In in E; destruct E as [Hin _]
        end.
        destruct (Ht t Hin) as [r Hr].
        match goal with E : t_phase t = FDone |- _ => rewrite E in Hr end.
        cbn [covering] in Hr. exists (rest ++ r). cbn [sink].
        now rewrite Hr, Hs, app_assoc.
      * right. exists t, rest. split; [|exact Hs].
        cbn [tickets]. now rewrite find_ticket_drop_other.
    + right. exists (advance FWaiting FCycle t), rest. cbn [tickets].
      rewrite find_ticket_advance, Hf, advance_snap. auto.
    + right. exists (advance FCycle FDone t), rest. cbn [tickets].
      rewrite find_ticket_advance, Hf, advance_snap. auto.
    + right. exists (advance FCycle FDone t), rest. cbn [tickets].
      rewrite find_ticket_advance, Hf, advance_snap. auto.
Qed.

Lemma flush_pending_run (c : nat) (snap : list Msg) (tr : list Event)
    (w w' : World) :
  Inv w -> flush_pending c snap w -> run w tr = Some w' ->
  flush_pending c snap w'.
Proof.
  revert w. induction tr as [|e tr IH]; intros w HI HJ H; simpl in H.
  - now inversion H; subst.
  - destruct (exec w e) as [w1|] eqn:E; [|discriminate].
    apply (IH w1); [now apply (Inv_exec w w1 e) | | exact H].
    now apply (flush_pending_exec c snap w w1 e).
Qed.

Lemma find_ticket_drop_same (c : nat) (l : list Ticket) :
  find_ticket c (drop_ticket c l) = None.
Proof.
  unfold find_ticket, drop_ticket. induction l as [|x l IH]; simpl; auto.
  destruct (Nat.eqb (t_caller x) c) eqn:E; simpl; [exact IH|].
  now rewrite E.
Qed.

Lemma flush_call_pending (c : nat) (w w' : World) :
  exec w (EvFlushCall c) = Some w' ->
  flush_pending c (map a_msg (appended w)) w'.
Proof.
  intros H. right.
  exists {| t_caller := c; t_phase := FWaiting;
            t_snap := map a_msg (appended w) |}, [].
  cbn [t_snap]. rewrite app_nil_r. split; [|reflexivity].
  cbn [exec] in H. unfold Flush_request in H.
  destruct (find_ticket c (tickets w)) eqn:Ef; [discriminate|].
  destruct (state_ (ctl w)); try discriminate.
  inversion H; subst w'. cbn [tickets].
  now apply find_ticket_app_none.
Qed.

Lemma flush_return_clears (c : nat) (w w' : World) :
  exec w (EvFlushReturn c) = Some w' ->
  find_ticket c (tickets w') = None /\ sink w' = sink w.
Proof.
  intros H. cbn [exec] in H.
  destruct (find_ticket c (tickets w)) as [t|]; [|discriminate].
  destruct (t_phase t); try discriminate.
  inversion H; subst w'. cbn [tickets sink].
  split; [apply find_ticket_drop_same | reflexivity].
Qed.

End Preservation.

Lemma firstn_length_app {A : Type} (l1 l2 : list A) :
  firstn (List.length l1) (l1 ++ l2) = l1.
Proof. induction l1 as [|x l1 IH]; simpl; [reflexivity | now rewrite IH]. Qed.

(** C1.  A [Flush] call made after the records of [tr1] were appended,
    and before any later record, returns only once the wrapped logger's
    write operation has received every one of them (and maybe more). *)
Theorem flush_lower_bound {abi : ABI} (max_buffer_bytes : Z)
    (tr1 tr2 : list Event) (c : nat) (w1 w2 : World) :
  run (boot max_buffer_bytes) tr1 = Some w1 ->
  run w1 (EvFlushCall c :: tr2 ++ [EvFlushReturn c]) = Some w2 ->
  exists more,
    received (sink w2) = map snd (trace_writes tr1) ++ more.
Proof.
  intros H1 H2.
  pose proof (Inv_run _ _ _ (Inv_boot max_buffer_bytes) H1) as HI1.
  destruct (appended_boot _ _ _ H1) as [_ Hsnap]. rewrite <- Hsnap.
  cbn [run] in H2.
  destruct (exec w1 (EvFlushCall c)) as [wc|] eqn:Ec; [|discriminate].
  apply run_snoc in H2. destruct H2 as (w3 & Hr & Eret).
  pose proof (Inv_exec _ _ _ HI1 Ec) as HIc.
  pose proof (Inv_run _ _ _ HIc Hr) as HI3.
  pose proof (flush_call_pending c w1 wc Ec) as Hp.
  apply (flush_pending_run c _ tr2 wc w3 HIc) in Hp; [|exact Hr].
  apply (flush_pending_exec c _ w3 w2 (EvFlushReturn c) HI3) in Hp;
    [|exact Eret].
  destruct (flush_return_clears c w3 w2 Eret) as [Hnone _].
  destruct Hp as [Hdone|(t & rest & Hf & _)]; [exact Hdone|].
  rewrite Hnone in Hf. discriminate.
Qed.

(** C2.  In every reachable state the estimated sizes of the active and
    the flushing buffer, summed, do not exceed [max_buffer_bytes]; so
    they do not exceed it by more than the cost of one record. *)
Theorem buffered_size_bounded {abi : ABI} (max_buffer_bytes : Z)
    (tr : list Event) (w : World) (in_flight : Msg) :
  0 < max_buffer_bytes <= INT_MAX ->
  run (boot max_buffer_bytes) tr = Some w ->
  max_buffer_bytes_ (ctl w) = max_buffer_bytes
  /\ 0 <= size (active_buf_ (ctl w))
  /\ 0 <= size (flushing_buf_ (ctl w))
  /\ size (active_buf_ (ctl w)) + size (flushing_buf_ (ctl w))
     <= max_buffer_bytes
  /\ size (active_buf_ (ctl w)) + size (flushing_buf_ (ctl w))
     <= max_buffer_bytes + record_cost in_flight.
Proof.
  intros Hmax Hrun.
  assert (Hs : sizes_ok w).
  { apply (sizes_ok_run tr (boot max_buffer_bytes)); [|exact Hrun].
    apply sizes_ok_boot. lia. }
  pose proof (max_buffer_bytes_run tr _ _ Hrun) as Hm. cbn in Hm.
  destruct Hs as (Ha & Hf & Hsum & _). unfold buffer_sound in *.
  pose proof (total_cost_nonneg (messages (active_buf_ (ctl w)))).
  pose proof (total_cost_nonneg (messages (flushing_buf_ (ctl w)))).
  pose proof (record_cost_pos in_flight).
  repeat split; lia.
Qed.

(** C3.  The wrapped logger receives the records in the order of the
    [Write] calls: what it has received is a prefix of the records
    written, in the order written; so the records of one producer reach
    it in the order of that producer's calls; and when a record of a
    later buffer generation has reached it, every record of an earlier
    generation has. *)
Theorem sink_preserves_order {abi : ABI} (max_buffer_bytes : Z)
    (tr : list Event) (w : World) (p : nat) :
  run (boot max_buffer_bytes) tr = Some w ->
  let n := List.length (received (sink w)) in
  map who_what (appended w) = trace_writes tr
  /\ received (sink w) = map snd (firstn n (trace_writes tr))
  /\ (exists later,
        issued_by p (trace_writes tr)
        = issued_by p (firstn n (trace_writes tr)) ++ later)
  /\ (forall i j a b,
        nth_error (appended w) i = Some a ->
        nth_error (appended w) j = Some b ->
        (a_gen a < a_gen b)%nat -> (j < n)%nat -> (i < n)%nat).
Proof.
  intros H n.
  pose proof (Inv_run _ _ _ (Inv_boot max_buffer_bytes) H) as HI.
  destruct (appended_boot _ _ _ H) as [Hw Hm].
  split; [exact Hw|]. split; [|split].
  - rewrite <- firstn_map, <- Hm, (inv_history w HI).
    unfold n. now rewrite firstn_length_app.
  - apply issued_by_firstn.
  - intros i j a b Hi Hj Hgen Hjn.
    destruct (inv_gens w HI) as [_ Hmono].
    destruct (Nat.lt_ge_cases i n) as [Hlt|Hge]; [exact Hlt|].
    assert (Hle : (a_gen b <= a_gen a)%nat)
      by (apply (Hmono j i b a); [lia | exact Hj | exact Hi]).
    lia.
Qed.


Lemma flush_lower_bound_witness :
  @run lp64 (boot 1024) tr_two = Some w_two
  /\ @run lp64 w_two (EvFlushCall 7 :: tr_pass ++ [EvFlushReturn 7])
     = Some w_flushed
  /\ exists more,
       received (sink w_flushed)
       = [ {| ts := 1; message := "alpha"; level := 0 |};
           {| ts := 2; message := "beta"; level := 2 |} ] ++ more.
Proof.
  assert (H1 : @run lp64 (boot 1024) tr_two = Some w_two) by reflexivity.
  assert (H2 : @run lp64 w_two (EvFlushCall 7 :: tr_pass ++ [EvFlushReturn 7])
               = Some w_flushed) by reflexivity.
  split; [exact H1|]. split; [exact H2|].
  exact (@flush_lower_bound lp64 1024 tr_two tr_pass 7 w_two w_flushed H1 H2).
Defined.

Lemma buffered_size_bounded_witness :
  0 < 1024 <= INT_MAX
  /\ @run lp64 (boot 1024) tr_full = Some w_full
  /\ size (active_buf_ (ctl w_full)) + size (flushing_buf_ (ctl w_full))
     <= 1024.
Proof.
  assert (H0 : 0 < 1024 <= INT_MAX) by (unfold INT_MAX; lia).
  assert (H1 : @run lp64 (boot 1024) tr_full = Some w_full) by reflexivity.
  split; [exact H0|]. split; [exact H1|].
  exact (proj1 (proj2 (proj2 (proj2
    (@buffered_size_bounded lp64 1024 tr_full w_full empty_msg H0 H1))))).
Defined.

Lemma sink_preserves_order_witness :
  @run lp64 (boot 1024) tr_mixed = Some w_mixed
  /\ received (sink w_mixed)
     = map snd (firstn (List.length (received (sink w_mixed)))
                  (trace_writes tr_mixed))
  /\ exists later,
       issued_by 0 (trace_writes tr_mixed)
       = issued_by 0 (firstn (List.length (received (sink w_mixed)))
                        (trace_writes tr_mixed)) ++ later.
Proof.
  assert (H1 : @run lp64 (boot 1024) tr_mixed = Some w_mixed) by reflexivity.
  split; [exact H1|].
  destruct (@sink_preserves_order lp64 1024 tr_mixed w_mixed 0 H1)
    as (_ & Hp & Hq & _).
  split; [exact Hp | exact Hq].
Defined.

(** * Further properties of [Buffer] *)

Lemma to_int_range (z : Z) : INT_MIN <= to_int z <= INT_MAX.
Proof.
  unfold to_int, INT_MIN, INT_MAX.
  pose proof (Z.mod_pos_bound (z + 2 ^ 31) (2 ^ 32) ltac:(lia)). lia.
Qed.

Lemma to_int_add_r (a b : Z) : to_int (a + to_int b) = to_int (a + b).
Proof.
  unfold to_int.
  replace (a + ((b + 2 ^ 31) mod 2 ^ 32 - 2 ^ 31) + 2 ^ 31)
    with (a + (b + 2 ^ 31) mod 2 ^ 32) by lia.
  rewrite Z.add_mod_idemp_r by lia.
  now replace (a + (b + 2 ^ 31)) with (a + b + 2 ^ 31) by lia.
Qed.

Lemma to_int_add_l (a b : Z) : to_int (to_int a + b) = to_int (a + b).
Proof. now rewrite (Z.add_comm (to_int a)), to_int_add_r, Z.add_comm. Qed.

Lemma to_int_above (z : Z) :
  INT_MAX < z <= INT_MAX + 2 ^ 32 -> to_int z = z - 2 ^ 32.
Proof.
  unfold to_int, INT_MAX. intros H.
  replace (z + 2 ^ 31) with (z - 2 ^ 31 + 1 * 2 ^ 32) by lia.
  rewrite Z.mod_add by lia. rewrite Z.mod_small; lia.
Qed.

Section MoreBufferFacts.
Context {abi : ABI}.

Lemma add_delta_wrapped (m : Msg) : add_delta m = to_int (record_cost m).
Proof.
  unfold add_delta, record_cost. now rewrite to_int_add_r, to_int_add_l.
Qed.

Lemma add_size_wrapped (b : Buffer) (m : Msg) (ff : bool) :
  size (add b m ff) = to_int (size b + record_cost m).
Proof. unfold add. cbn [size]. now rewrite add_delta_wrapped, to_int_add_r. Qed.

Lemma add_all_size_wrapped (calls : list (Msg * bool)) :
  forall (b : Buffer) (m : Msg) (ff : bool),
    size (add_all (add b m ff) calls)
    = to_int (size b + record_cost m + total_cost (map fst calls)).
Proof.
  induction calls as [|[m' ff'] calls IH]; intros b m ff.
  - cbn [add_all fold_left map total_cost fold_right].
    rewrite Z.add_0_r. apply add_size_wrapped.
  - change (add_all (add b m ff) ((m', ff') :: calls))
      with (add_all (add (add b m ff) m' ff') calls).
    rewrite IH, add_size_wrapped. cbn [map fst total_cost fold_right].
    rewrite <- Z.add_assoc, to_int_add_l.
    f_equal; unfold total_cost; lia.
Qed.

Lemma total_cost_split (l : list Msg) :
  total_cost l = Z.pos sizeof_Msg * Z.of_nat (List.length l) + text_bytes l.
Proof.
  induction l as [|m l IH]; [reflexivity|].
  cbn [total_cost text_bytes fold_right List.length].
  fold (total_cost l). fold (text_bytes l). rewrite IH.
  unfold record_cost. lia.
Qed.

Lemma text_bytes_nonneg (l : list Msg) : 0 <= text_bytes l.
Proof. induction l as [|m l IH]; cbn; [lia|]. fold (text_bytes l). lia. Qed.

End MoreBufferFacts.

(** X1.  A buffer keeps its records in the order of the [add] calls:
    after a run of calls it holds what it held before followed by the
    records of the calls, one for each call, whatever the flags and
    whatever has become of the size estimate. *)
Theorem buffer_keeps_append_order {abi : ABI} (b : Buffer)
    (calls : list (Msg * bool)) (i : nat) :
  messages (add_all b calls) = messages b ++ map fst calls
  /\ List.length (messages (add_all b calls))
     = (List.length (messages b) + List.length calls)%nat
  /\ nth_error (messages (add_all (clear b) calls)) i
     = option_map fst (nth_error calls i).
Proof.
  split; [apply add_all_messages|]. split.
  - now rewrite add_all_messages, length_app, length_map.
  - rewrite add_all_messages. cbn [clear messages app].
    apply nth_error_map.
Qed.

(** X2.  The size estimate is the sum of (overhead + text length) wrapped
    into the [int] range: one [add] takes it to the wrapped sum of the
    estimate and the record's cost, and after any run of [add] calls
    since the last [clear] it is the wrapped total cost of the records,
    which lies between INT_MIN and INT_MAX. *)
Theorem size_is_wrapped_total {abi : ABI} (b : Buffer)
    (calls : list (Msg * bool)) (m : Msg) (ff : bool) :
  size (add b m ff) = to_int (size b + record_cost m)
  /\ size (add_all (clear b) calls) = to_int (total_cost (map fst calls))
  /\ INT_MIN <= size (add_all (clear b) calls) <= INT_MAX.
Proof.
  split; [apply add_size_wrapped|].
  assert (H : size (add_all (clear b) calls)
              = to_int (total_cost (map fst calls))).
  { destruct calls as [|[m0 f0] calls]; [reflexivity|].
    change (add_all (clear b) ((m0, f0) :: calls))
      with (add_all (add (clear b) m0 f0) calls).
    rewrite add_all_size_wrapped. cbn [clear size map fst]. f_equal. }
  split; [exact H|]. rewrite H. apply to_int_range.
Qed.

(** X3.  [needs_flush_or_write()] never goes back to false under [add]:
    after a run of calls it is true when it was true before or when there
    was at least one call; after [clear] it is false, and then it is true
    exactly when there has been a call. *)
Theorem wake_predicate_after_adds {abi : ABI} (b : Buffer)
    (calls : list (Msg * bool)) :
  needs_flush_or_write (add_all b calls)
  = needs_flush_or_write b || negb (is_empty calls)
  /\ needs_flush_or_write (clear b) = false
  /\ needs_flush_or_write (add_all (clear b) calls) = negb (is_empty calls).
Proof.
  assert (H : forall b0 : Buffer,
             needs_flush_or_write (add_all b0 calls)
             = needs_flush_or_write b0 || negb (is_empty calls)).
  { intros b0. unfold needs_flush_or_write.
    rewrite add_all_flush, add_all_messages.
    destruct calls as [|[m0 f0] calls]; cbn [map fst is_empty negb existsb].
    - now rewrite app_nil_r, !orb_false_r.
    - destruct (messages b0); cbn; now rewrite !orb_true_r. }
  split; [apply H|]. split; [reflexivity|].
  now rewrite H.
Qed.

(** X4.  The first [add] that takes the sum of the costs past INT_MAX
    turns the estimate negative: when the records appended since the last
    [clear] still fit the [int] range and one more record, itself within
    the range, does not, the estimate after that [add] is the sum less
    2^32, which is below zero. *)
Theorem first_overflow_is_negative {abi : ABI} (b : Buffer)
    (calls : list (Msg * bool)) (m : Msg) (ff : bool) :
  total_cost (map fst calls) <= INT_MAX ->
  record_cost m <= INT_MAX ->
  INT_MAX < total_cost (map fst calls) + record_cost m ->
  let b' := add_all (clear b) calls in
  size b' = total_cost (map fst calls)
  /\ size (add b' m ff) = total_cost (map fst calls) + record_cost m - 2 ^ 32
  /\ size (add b' m ff) < 0.
Proof.
  intros Ht Hm Hover b'.
  pose proof (total_cost_nonneg (map fst calls)) as H0.
  assert (Hb : size b' = total_cost (map fst calls)).
  { unfold b'. rewrite add_all_size_exact; cbn [clear size]; lia. }
  assert (Ha : size (add b' m ff)
               = total_cost (map fst calls) + record_cost m - 2 ^ 32).
  { rewrite add_size_wrapped, Hb. apply to_int_above.
    unfold INT_MAX in *. lia. }
  split; [exact Hb|]. split; [exact Ha|].
  rewrite Ha. unfold INT_MAX in *. lia.
Qed.

Lemma first_overflow_is_negative_witness :
  @total_cost lp64 (map fst [(huge_msg, false)]) <= INT_MAX
  /\ @record_cost lp64 empty_msg <= INT_MAX
  /\ INT_MAX < @total_cost lp64 (map fst [(huge_msg, false)])
               + @record_cost lp64 empty_msg
  /\ size (@add lp64 (@add_all lp64 (clear Buffer_new) [(huge_msg, false)])
             empty_msg true) < 0.
Proof.
  assert (Hbig : @total_cost lp64 (map fst [(huge_msg, false)]) = INT_MAX).
  { cbn [map fst total_cost fold_right]. unfold record_cost, huge_msg, message.
    cbv beta iota. rewrite length_filler, Z2Nat.id by discriminate.
    reflexivity. }
  assert (Hsmall : @record_cost lp64 empty_msg = 48) by reflexivity.
  assert (H1 : @total_cost lp64 (map fst [(huge_msg, false)]) <= INT_MAX)
    by (rewrite Hbig; apply Z.le_refl).
  assert (H2 : @record_cost lp64 empty_msg <= INT_MAX)
    by (rewrite Hsmall; discriminate).
  assert (H3 : INT_MAX < @total_cost lp64 (map fst [(huge_msg, false)])
                         + @record_cost lp64 empty_msg)
    by (rewrite Hbig, Hsmall; reflexivity).
  split; [exact H1|]. split; [exact H2|]. split; [exact H3|].
  exact (proj2 (proj2
    (@first_overflow_is_negative lp64 Buffer_new [(huge_msg, false)]
       empty_msg true H1 H2 H3))).
Defined.

(** X5.  While the costs of the records appended since the last [clear]
    fit the [int] range, the estimate charges [sizeof(Msg)] for each
    record on top of the bytes of its text, so it is positive exactly
    when the buffer holds a record; [needs_flush_or_write()] is then the
    flag or a positive estimate. *)
Theorem size_counts_records_and_bytes {abi : ABI} (b : Buffer)
    (calls : list (Msg * bool)) :
  total_cost (map fst calls) <= INT_MAX ->
  let b' := add_all (clear b) calls in
  size b' = Z.pos sizeof_Msg * Z.of_nat (List.length (messages b'))
            + text_bytes (messages b')
  /\ Z.of_nat (List.length (messages b')) <= size b'
  /\ needs_flush_or_write b' = flush b' || (0 <? size b').
Proof.
  intros Ht b'.
  pose proof (total_cost_nonneg (map fst calls)) as H0.
  assert (Hm : messages b' = map fst calls)
    by (unfold b'; now rewrite add_all_messages).
  assert (Hb : size b' = total_cost (messages b')).
  { rewrite Hm. unfold b'. rewrite add_all_size_exact; cbn [clear size]; lia. }
  pose proof (total_cost_split (messages b')) as Hsplit.
  pose proof (text_bytes_nonneg (messages b')) as Htb.
  split; [now rewrite Hb|]. split; [nia|].
  unfold needs_flush_or_write. f_equal.
  destruct (messages b') as [|m0 l0] eqn:E.
  - cbn in Hb. rewrite Hb. reflexivity.
  - cbn [negb]. symmetry. apply Z.ltb_lt.
    rewrite Hb. cbn [total_cost fold_right].
    pose proof (record_cost_pos m0). pose proof (total_cost_nonneg l0).
    unfold total_cost in *. lia.
Qed.

Lemma size_counts_records_and_bytes_witness :
  @total_cost lp64 (map fst [(empty_msg, false); (empty_msg, true)]) <= INT_MAX
  /\ size (@add_all lp64 (clear Buffer_new)
             [(empty_msg, false); (empty_msg, true)]) = 48 * 2 + 0.
Proof.
  assert (H : @total_cost lp64 (map fst [(empty_msg, false); (empty_msg, true)])
              <= INT_MAX) by (vm_compute; discriminate).
  split; [exact H|].
  exact (proj1 (@size_counts_records_and_bytes lp64 Buffer_new
                  [(empty_msg, false); (empty_msg, true)] H)).
Defined.
